(** * A shallow embedding of [src/lib/storage/factory.ts]

    [createStorage] wraps the callback based [chrome.storage.local] API in
    promise returning methods.  The methods are embedded as state passing
    functions over an explicit [world]: the store's items, the
    [chrome.runtime.lastError] side channel, the [onChanged] listener list,
    the heap of promises, the console and the record of callback
    invocations.

    Conventions of the embedding.
    - A JavaScript object used as a dictionary ([result], [changes], the
      entries given to the store) is a plain object: a finite map of its
      own properties, over the properties that every plain object inherits
      from [Object.prototype].  Reading a property and the operator [in]
      see both.
    - [undefined] is [None]; a value of the accessor's type [T] is [Some v].
      The cast [as T] is erased at run time, so the store holds values of
      [T] as well, and a promise typed [T | undefined] can be fulfilled with
      a member of [Object.prototype], which is no value of [T].
    - A method is run up to quiescence: the platform has completed the
      request and has run the callback it was given.  A promise that is
      still [Pending] in the resulting world is never settled.
    - Methods are called on the accessor object, so [this] is the accessor. *)

From stdpp Require Import gmap strings list fin_maps.

(** ** Failures and completions *)

(** The single kind of failure of the store (spec, section 7). *)
Inductive error : Type :=
  | StoreUnavailable (msg : string).

(** How the platform behaves on one call of an asynchronous store function:
    it completes the request, it raises from the call itself, or it accepts
    the call and reports the failure through [chrome.runtime.lastError]
    when it runs the callback. *)
Inductive fault : Type :=
  | Works
  | Throws (e : error)
  | Reports (e : error).

(** How a piece of JavaScript code completes: normally with a value, by an
    exception, or suspended at an [await] on a promise that never settles. *)
Inductive completion (A : Type) : Type :=
  | Normal (a : A)
  | Throw (e : error)
  | Suspend.
Arguments Normal {A} a.
Arguments Throw {A} e.
Arguments Suspend {A}.

(** The closure [listener] built by [watch]: it captures [config.key] and
    the caller's [callback] (a function object, known by its name). *)
Record listener : Type := Listener {
  l_key : string;
  l_callback : nat;
}.

(** The function returned by [watch]: the closure that removes the listener
    [lid], or the empty function. *)
Inductive unregister : Type :=
  | Unwatch (key : string) (lid : nat)
  | NoOp.

(** ** Plain objects *)

(** The names of the properties that every plain object inherits from
    [Object.prototype]. *)
Definition object_prototype : list string :=
  ["constructor"; "hasOwnProperty"; "isPrototypeOf"; "propertyIsEnumerable";
   "toLocaleString"; "toString"; "valueOf"; "__proto__";
   "__defineGetter__"; "__defineSetter__"; "__lookupGetter__";
   "__lookupSetter__"].

Definition inherited (k : string) : bool :=
  bool_decide (k ∈ object_prototype).

(** What a plain object has under a name: a property of its own, a member
    of [Object.prototype], or nothing. *)
Inductive property (X : Type) : Type :=
  | Own (x : X)
  | Inherited (name : string)
  | Missing.
Arguments Own {X} x.
Arguments Inherited {X} name.
Arguments Missing {X}.

Definition property_of {X : Type} (k : string) (own : option X) : property X :=
  match own with
  | Some x => Own x
  | None => if inherited k then Inherited k else Missing
  end.

(** [obj[k]] *)
Definition js_lookup {X : Type} (obj : gmap string X) (k : string)
    : property X :=
  property_of k (obj !! k).

(** [k in obj] *)
Definition js_in {X : Type} (k : string) (obj : gmap string X) : bool :=
  match js_lookup obj k with
  | Missing => false
  | _ => true
  end.

Section Model.
Context {T : Type}.

(** Modelled from the spec: [StorageConfig<T>] of [./types], which is not
    among the sources: [{ key: string, defaultValue: T }]. *)
Record StorageConfig : Type := Config {
  key : string;
  defaultValue : T;
}.

(** [chrome.storage.StorageChange]: both fields are optional. *)
Record StorageChange : Type := Change {
  newValue : option T;
  oldValue : option T;
}.

(** A value as the accessor meets it at run time: [undefined], a value of
    [T], or the member [name] of [Object.prototype]. *)
Inductive jsvalue : Type :=
  | JUndefined
  | JValue (v : T)
  | JInherited (name : string).

(** The value of the expression [obj[k]]. *)
Definition as_value (p : property T) : jsvalue :=
  match p with
  | Own v => JValue v
  | Inherited name => JInherited name
  | Missing => JUndefined
  end.

(** [x.newValue] for [x] read from [changes]: a member of
    [Object.prototype] has no such property.  The listener reads it only
    under the test [k in changes], which excludes [Missing]. *)
Definition newValue_of (p : property StorageChange) : option T :=
  match p with
  | Own ch => newValue ch
  | _ => None
  end.

(** ** Promises *)

(** A promise is pending, fulfilled with [undefined] or a value of [T],
    rejected, or fulfilled with a member of [Object.prototype]. *)
Inductive pstate : Type :=
  | Pending
  | Fulfilled (v : option T)
  | Rejected (e : error)
  | FulfilledInherited (name : string).

Definition fulfilled (x : jsvalue) : pstate :=
  match x with
  | JUndefined => Fulfilled None
  | JValue v => Fulfilled (Some v)
  | JInherited name => FulfilledInherited name
  end.

(** A promise object.  [settle_calls] counts the calls of its resolving
    functions; it is only observed by the properties. *)
Record cell : Type := Cell {
  state : pstate;
  settle_calls : nat;
}.

(** What the body of an [async] function returns: a promise, which the
    function's own promise then follows, or a plain value. *)
Inductive ret_val : Type :=
  | RetPromise (p : nat)
  | RetValue (v : jsvalue).

(** ** The world *)

Record world : Type := World {
  items : gmap string T;                       (* chrome.storage.local *)
  lastError : option error;                    (* chrome.runtime.lastError *)
  listeners : list (nat * listener);           (* onChanged, oldest first *)
  promises : gmap nat cell;                    (* promise objects *)
  nextId : nat;                                (* next object identity *)
  console : list (string * error);             (* console.error lines *)
  uncaught : list error;                       (* raised out of a callback *)
  invocations : list (nat * nat * option T);   (* listener, callback, argument *)
}.

Definition with_items (m : gmap string T) (w : world) : world :=
  World m (lastError w) (listeners w) (promises w) (nextId w)
        (console w) (uncaught w) (invocations w).

Definition with_lastError (le : option error) (w : world) : world :=
  World (items w) le (listeners w) (promises w) (nextId w)
        (console w) (uncaught w) (invocations w).

Definition with_listeners (ls : list (nat * listener)) (w : world) : world :=
  World (items w) (lastError w) ls (promises w) (nextId w)
        (console w) (uncaught w) (invocations w).

Definition with_promises (ps : gmap nat cell) (w : world) : world :=
  World (items w) (lastError w) (listeners w) ps (nextId w)
        (console w) (uncaught w) (invocations w).

Definition with_nextId (n : nat) (w : world) : world :=
  World (items w) (lastError w) (listeners w) (promises w) n
        (console w) (uncaught w) (invocations w).

Definition with_console (c : list (string * error)) (w : world) : world :=
  World (items w) (lastError w) (listeners w) (promises w) (nextId w)
        c (uncaught w) (invocations w).

Definition with_uncaught (u : list error) (w : world) : world :=
  World (items w) (lastError w) (listeners w) (promises w) (nextId w)
        (console w) u (invocations w).

Definition with_invocations (i : list (nat * nat * option T)) (w : world) : world :=
  World (items w) (lastError w) (listeners w) (promises w) (nextId w)
        (console w) (uncaught w) i.

(** A world in which nothing has happened yet. *)
Definition fresh_world : world :=
  World ∅ None [] ∅ 0 [] [] [].

(** ** Code as a state and exception monad *)

Definition M (A : Type) : Type := world -> world * completion A.

Definition ret {A : Type} (a : A) : M A := fun w => (w, Normal a).

Definition throw {A : Type} (e : error) : M A := fun w => (w, Throw e).

Definition bind {A B : Type} (m : M A) (k : A -> M B) : M B :=
  fun w =>
    match m w with
    | (w1, Normal a) => k a w1
    | (w1, Throw e) => (w1, Throw e)
    | (w1, Suspend) => (w1, Suspend)
    end.

(** [try { m } catch (error) { h error }] *)
Definition try_catch {A : Type} (m : M A) (h : error -> M A) : M A :=
  fun w =>
    match m w with
    | (w1, Throw e) => h e w1
    | r => r
    end.

Notation "x <- m ;; k" := (bind m (fun x => k))
  (at level 100, m at next level, right associativity).
Notation "m ;; k" := (bind m (fun _ => k))
  (at level 100, right associativity).

(** [console.error(msg, error)] *)
Definition console_error (msg : string) (e : error) : M unit :=
  fun w => (with_console (console w ++ [(msg, e)]) w, Normal tt).

(** ** Promise objects *)

Definition promise_state (w : world) (p : nat) : pstate :=
  match promises w !! p with
  | Some c => state c
  | None => Pending
  end.

Definition promise_settle_calls (w : world) (p : nat) : nat :=
  match promises w !! p with
  | Some c => settle_calls c
  | None => 0
  end.

Definition alloc_promise : M nat :=
  fun w =>
    let p := nextId w in
    (with_nextId (S p) (with_promises (<[p := Cell Pending 0]> (promises w)) w),
     Normal p).

(** What a call of a resolving function does to the promise: only the
    first call changes its state. *)
Definition settle_cell (s : pstate) (c : cell) : cell :=
  Cell (match state c with Pending => s | old => old end) (S (settle_calls c)).

(** A resolving function of promise [p]. *)
Definition settle (p : nat) (s : pstate) : M unit :=
  fun w => (with_promises (alter (settle_cell s) p (promises w)) w, Normal tt).

Definition resolve (p : nat) (x : jsvalue) : M unit := settle p (fulfilled x).

Definition reject (p : nat) (e : error) : M unit := settle p (Rejected e).

(** [new Promise(executor)]: the executor runs at once and receives the
    resolving function of the new promise, here the promise itself; an
    exception raised by the executor rejects the promise and is not raised
    by the constructor. *)
Definition new_Promise (executor : nat -> M unit) : M nat :=
  p <- alloc_promise ;;
  try_catch (executor p) (fun e => reject p e) ;;
  ret p.

(** The promise [q] of an [async] function takes the state of the promise
    [p] its body returned. *)
Definition follow (q p : nat) : M unit :=
  fun w =>
    match promise_state w p with
    | Pending => (w, Normal tt)
    | Fulfilled v => settle q (Fulfilled v) w
    | Rejected e => reject q e w
    | FulfilledInherited name => settle q (FulfilledInherited name) w
    end.

(** [async function () { body }]: the call returns a promise, settled by the
    completion of the body. *)
Definition async_fn (body : M ret_val) : M nat :=
  q <- alloc_promise ;;
  (fun w =>
     match body w with
     | (w1, Normal (RetValue v)) => resolve q v w1
     | (w1, Normal (RetPromise p)) => follow q p w1
     | (w1, Throw e) => reject q e w1
     | (w1, Suspend) => (w1, Normal tt)
     end) ;;
  ret q.

(** [await p] *)
Definition await (p : nat) : M jsvalue :=
  fun w =>
    match promise_state w p with
    | Fulfilled (Some v) => (w, Normal (JValue v))
    | Fulfilled None => (w, Normal JUndefined)
    | FulfilledInherited name => (w, Normal (JInherited name))
    | Rejected e => (w, Throw e)
    | Pending => (w, Suspend)
    end.

(** ** The platform: [chrome.storage.local] and [chrome.runtime]

    The external collaborator of the spec's section 6.  Each asynchronous
    function takes the [fault] of this call.  The callback runs with
    [chrome.runtime.lastError] set as the fault says; what it raises goes to
    the platform, not to the code that made the call. *)

Definition run_callback (le : option error) (callback : M unit) : M unit :=
  fun w =>
    let '(w1, c) := callback (with_lastError le w) in
    let w2 := match c with
              | Throw e => with_uncaught (uncaught w1 ++ [e]) w1
              | _ => w1
              end in
    (with_lastError None w2, Normal tt).

(** [chrome.storage.local.get(keys, callback)]; with a reported failure no
    item is passed to the callback. *)
Definition chrome_storage_local_get (keys : list string)
    (callback : gmap string T -> M unit) (f : fault) : M unit :=
  match f with
  | Works => fun w =>
      run_callback None (callback (filter (fun kv => kv.1 ∈ keys) (items w))) w
  | Throws e => throw e
  | Reports e => run_callback (Some e) (callback ∅)
  end.

(** [chrome.storage.local.set(entries, callback)]; a failed write stores
    nothing. *)
Definition chrome_storage_local_set (entries : gmap string T)
    (callback : M unit) (f : fault) : M unit :=
  match f with
  | Works => fun w =>
      run_callback None callback (with_items (entries ∪ items w) w)
  | Throws e => throw e
  | Reports e => run_callback (Some e) callback
  end.

(** [chrome.storage.local.remove(key, callback)] *)
Definition chrome_storage_local_remove (k : string)
    (callback : M unit) (f : fault) : M unit :=
  match f with
  | Works => fun w =>
      run_callback None callback (with_items (delete k (items w)) w)
  | Throws e => throw e
  | Reports e => run_callback (Some e) callback
  end.

(** [chrome.storage.local.onChanged.addListener(listener)]; [f] is what the
    call raises, if anything. *)
Definition onChanged_addListener (lid : nat) (l : listener)
    (f : option error) : M unit :=
  match f with
  | None => fun w => (with_listeners (listeners w ++ [(lid, l)]) w, Normal tt)
  | Some e => throw e
  end.

(** [chrome.storage.local.onChanged.removeListener(listener)] *)
Definition onChanged_removeListener (lid : nat) (f : option error) : M unit :=
  match f with
  | None => fun w =>
      (with_listeners (filter (fun x => x.1 ≠ lid) (listeners w)) w, Normal tt)
  | Some e => throw e
  end.

(** ** [createStorage]: the methods of the accessor *)

(** [get], lines 11-23. *)
Definition get (config : StorageConfig) (f : fault) : M nat :=
  async_fn
    (try_catch
       (p <- new_Promise (fun p =>
               chrome_storage_local_get [key config]
                 (fun result =>
                    resolve p (as_value (js_lookup result (key config)))) f) ;;
        ret (RetPromise p))
       (fun error =>
          console_error ("Storage get error for " ++ key config ++ ":") error ;;
          throw error)).

(** The callback given to the store by [set], lines 30-36. *)
Definition set_callback (config : StorageConfig) (p : nat) : M unit :=
  fun w =>
    match lastError w with
    | Some err =>
        (console_error ("Storage set error for " ++ key config ++ ":") err ;;
         throw err) w
    | None => resolve p JUndefined w
    end.

(** [set], lines 26-42. *)
Definition set (config : StorageConfig) (value : T) (f : fault) : M nat :=
  async_fn
    (try_catch
       (p <- new_Promise (fun p =>
               chrome_storage_local_set {[key config := value]}
                 (set_callback config p) f) ;;
        ret (RetPromise p))
       (fun error =>
          console_error ("Storage set error for " ++ key config ++ ":") error ;;
          throw error)).

(** The closure [listener] applied to [changes], lines 46-53; the call of
    the caller's callback is recorded with its argument. *)
Definition run_listener (lid : nat) (l : listener)
    (changes : gmap string StorageChange) (w : world) : world :=
  if js_in (l_key l) changes then
    with_invocations
      (invocations w
       ++ [(lid, l_callback l, newValue_of (js_lookup changes (l_key l)))]) w
  else w.

(** The function returned by [watch], lines 58-65 and 68, applied; [f] is
    the fault of its [removeListener] call. *)
Definition call_unregister (u : unregister) (f : option error) : M unit :=
  match u with
  | Unwatch k lid =>
      try_catch
        (onChanged_removeListener lid f)
        (fun error =>
           console_error ("Storage unwatch error for " ++ k ++ ":") error)
  | NoOp => ret tt
  end.

(** [watch], lines 45-70; [f] is the fault of its [addListener] call. *)
Definition watch (config : StorageConfig) (callback : nat)
    (f : option error) : M unregister :=
  fun w =>
    let lid := nextId w in
    try_catch
      (onChanged_addListener lid (Listener (key config) callback) f ;;
       ret (Unwatch (key config) lid))
      (fun error =>
         console_error ("Storage watch error for " ++ key config ++ ":") error ;;
         ret NoOp)
      (with_nextId (S lid) w).

(** [getWithDefault], lines 73-81. *)
Definition getWithDefault (config : StorageConfig) (f : fault) : M nat :=
  async_fn
    (try_catch
       (p <- get config f ;;
        value <- await p ;;
        ret (RetValue (match value with
                       | JUndefined => JValue (defaultValue config)
                       | defined => defined
                       end)))
       (fun error =>
          console_error
            ("Storage getWithDefault error for " ++ key config ++ ":") error ;;
          ret (RetValue (JValue (defaultValue config))))).

(** [reset], lines 84-86. *)
Definition reset (config : StorageConfig) (f : fault) : M nat :=
  async_fn
    (p <- set config (defaultValue config) f ;;
     ret (RetPromise p)).

(** The callback given to the store by [remove], lines 93-99. *)
Definition remove_callback (config : StorageConfig) (p : nat) : M unit :=
  fun w =>
    match lastError w with
    | Some err =>
        (console_error ("Storage remove error for " ++ key config ++ ":") err ;;
         throw err) w
    | None => resolve p JUndefined w
    end.

(** [remove], lines 89-105. *)
Definition remove (config : StorageConfig) (f : fault) : M nat :=
  async_fn
    (try_catch
       (p <- new_Promise (fun p =>
               chrome_storage_local_remove (key config)
                 (remove_callback config p) f) ;;
        ret (RetPromise p))
       (fun error =>
          console_error ("Storage remove error for " ++ key config ++ ":") error ;;
          throw error)).

(** [getConfig], lines 108-110. *)
Definition getConfig (config : StorageConfig) : StorageConfig := config.

(** Modelled from the spec: the interface [Storage<T>] of [./types], which
    is not among the sources; one field per operation of section 4.1. *)
Record Storage : Type := {
  Storage_get : fault -> M nat;
  Storage_set : T -> fault -> M nat;
  Storage_watch : nat -> option error -> M unregister;
  Storage_getWithDefault : fault -> M nat;
  Storage_reset : fault -> M nat;
  Storage_remove : fault -> M nat;
  Storage_getConfig : StorageConfig;
}.

(** [createStorage], lines 8-112. *)
Definition createStorage (config : StorageConfig) : Storage :=
  {| Storage_get := get config;
     Storage_set := set config;
     Storage_watch := watch config;
     Storage_getWithDefault := getWithDefault config;
     Storage_reset := reset config;
     Storage_remove := remove config;
     Storage_getConfig := getConfig config |}.

(** ** Change events *)

(** The platform delivers one change event: every registered listener is
    applied to [changes], oldest first. *)
Definition deliver (changes : gmap string StorageChange) (w : world) : world :=
  foldl (fun w1 x => run_listener x.1 x.2 changes w1) w (listeners w).

Definition deliver_all (events : list (gmap string StorageChange))
    (w : world) : world :=
  foldl (fun w1 changes => deliver changes w1) w events.

(** A recorded call, when it was made through listener [lid]. *)
Definition through (lid : nat) (x : nat * nat * option T)
    : option (nat * option T) :=
  if decide (x.1.1 = lid) then Some (x.1.2, x.2) else None.

(** The calls of callbacks made through listener [lid], oldest first. *)
Definition invocations_of (lid : nat) (w : world) : list (nat * option T) :=
  omap (through lid) (invocations w).

(** ** Observing a call *)

(** The world after a call, and the state of the promise it returned. *)
Definition after {A : Type} (r : world * completion A) : world := r.1.

Definition outcome (r : world * completion nat) : pstate :=
  match r.2 with
  | Normal p => promise_state r.1 p
  | _ => Pending
  end.

(** Listener identities come from [nextId]: none registered is ahead of it. *)
Definition listeners_known (w : world) : Prop :=
  Forall (fun x => x.1 < nextId w) (listeners w).

End Model.

Arguments StorageConfig T : clear implicits.
Arguments StorageChange T : clear implicits.
Arguments pstate T : clear implicits.
Arguments world T : clear implicits.
Arguments Storage T : clear implicits.
Arguments jsvalue T : clear implicits.

Section Derived.
Context {T : Type}.

(** The call that a registered listener makes on one change event, if any. *)
Definition listener_call (changes : gmap string (StorageChange T))
    (x : nat * listener) : option (nat * nat * option T) :=
  if js_in (l_key x.2) changes
  then Some (x.1, l_callback x.2, newValue_of (js_lookup changes (l_key x.2)))
  else None.

(** The argument of the call that a subscription to [k] owes to one change
    event: the [newValue] of [k] when the event has [k] itself, [undefined]
    when the event only inherits [k], and no call otherwise. *)
Definition owed_arg (k : string) (changes : gmap string (StorageChange T))
    : option (option T) :=
  match changes !! k with
  | Some ch => Some (newValue ch)
  | None => if inherited k then Some None else None
  end.

(** The arguments owed to a sequence of change events, in order. *)
Definition owed_args (k : string)
    (events : list (gmap string (StorageChange T))) : list (option T) :=
  omap (owed_arg k) events.

(** The same as calls of [callback]. *)
Definition owed_calls (k : string) (callback : nat)
    (events : list (gmap string (StorageChange T))) : list (nat * option T) :=
  (fun v => (callback, v)) <$> owed_args k events.





(** What [get()] resolves to on a store that works and holds [r] for the
    key [k]: [r] when there is one, else the member of [Object.prototype]
    named [k] when there is one, else [undefined]. *)
Definition read_of (k : string) (r : option T) : pstate T :=
  match r with
  | Some v => Fulfilled (Some v)
  | None => if inherited k then FulfilledInherited k else Fulfilled None
  end.

(** The same for [getWithDefault()] of an accessor with default [d]. *)
Definition read_default_of (k : string) (d : T) (r : option T) : pstate T :=
  match r with
  | Some v => Fulfilled (Some v)
  | None => if inherited k then FulfilledInherited k else Fulfilled (Some d)
  end.


(** ** Sequences of writes *)

(** The three operations of the accessor that write to the store. *)
Inductive write_op : Type :=
  | OpSet (value : T)
  | OpRemove
  | OpReset.

(** One write through the accessor of [config], the store call of which
    meets fault [f]. *)
Definition run_op (config : StorageConfig T) (o : write_op) (f : fault)
    : world T -> world T * completion nat :=
  match o with
  | OpSet value => set config value f
  | OpRemove => remove config f
  | OpReset => reset config f
  end.

(** Writes made one after the other, each run up to quiescence. *)
Definition run_ops (config : StorageConfig T) (os : list (write_op * fault))
    (w : world T) : world T :=
  foldl (fun w1 x => after (run_op config x.1 x.2 w1)) w os.

(** The reference for the configured key: one register, [None] when the key
    is not stored.  A write changes it only when the store works. *)
Definition register_step (d : T) (r : option T) (x : write_op * fault)
    : option T :=
  match x.2 with
  | Works =>
      match x.1 with
      | OpSet value => Some value
      | OpRemove => None
      | OpReset => Some d
      end
  | _ => r
  end.

Definition register_run (d : T) (os : list (write_op * fault))
    (r : option T) : option T :=
  foldl (register_step d) r os.

End Derived.

(** ** The scenario of the spec's section 8 *)

Definition theme_config : StorageConfig string := Config "theme" "light".

Definition quota_exceeded : error := StoreUnavailable "QUOTA_BYTES quota exceeded".

Definition theme_changed : gmap string (StorageChange string) :=
  {["theme" := Change (Some "dark") (Some "light")]}.

Definition theme_removed : gmap string (StorageChange string) :=
  {["theme" := Change None (Some "dark")]}.

Definition locale_changed : gmap string (StorageChange string) :=
  {["locale" := Change (Some "fr") None]}.

Definition context_invalidated : error :=
  StoreUnavailable "Extension context invalidated.".

Definition locale_config : StorageConfig string := Config "locale" "en".


(** A store that already holds a theme. *)
Definition dark_store : world string :=
  after (set theme_config "dark" Works fresh_world).

(** Writes to the theme, the second and the fourth of which fail. *)
Definition theme_writes : list (@write_op string * fault) :=
  [(OpSet "dark", Works); (OpSet "blue", Reports quota_exceeded);
   (OpReset, Works); (OpRemove, Throws context_invalidated);
   (OpSet "sepia", Works)].

(** The world after [watch(cb)] on a fresh store, [cb] being callback 7. *)
Definition watching : world string :=
  after (watch theme_config 7 None fresh_world).

(** ** Running the embedding inside proofs *)

Ltac js_unfold :=
  cbv beta iota zeta delta
    [get set remove reset getWithDefault watch call_unregister
     set_callback remove_callback
     async_fn new_Promise follow await resolve reject settle settle_cell
     alloc_promise promise_state promise_settle_calls
     chrome_storage_local_get chrome_storage_local_set
     chrome_storage_local_remove
     onChanged_addListener onChanged_removeListener run_callback console_error
     bind ret throw try_catch outcome after
     with_items with_lastError with_listeners with_promises with_nextId
     with_console with_uncaught with_invocations
     items lastError listeners promises nextId console uncaught invocations
     state settle_calls fulfilled as_value];
  cbn [fst snd fmap option_fmap option_map].

Ltac js_heap :=
  first [ rewrite lookup_alter_eq
        | rewrite lookup_alter_ne by lia
        | rewrite lookup_insert_eq
        | rewrite lookup_insert_ne by lia ].

(** Symbolic execution from a world given by its fields. *)
Ltac js_run := repeat (js_unfold; try js_heap).

(** What the callback of [get] reads from the result of the store. *)
Section Results.
Context {T : Type}.

Lemma lookup_filter_key (k : string) (m : gmap string T) :
  filter (fun kv : string * T => kv.1 ∈ [k]) m !! k = m !! k.
Proof.
  destruct (m !! k) as [x|] eqn:Hk.
  - apply map_lookup_filter_Some. split; [done | simpl; set_solver].
  - apply map_lookup_filter_None. by left.
Qed.

Lemma js_lookup_filter_key (k : string) (m : gmap string T) :
  js_lookup (filter (fun kv : string * T => kv.1 ∈ [k]) m) k = js_lookup m k.
Proof. unfold js_lookup. by rewrite lookup_filter_key. Qed.

Lemma js_lookup_empty (k : string) :
  js_lookup (∅ : gmap string T) k = property_of k None.
Proof. unfold js_lookup. by rewrite lookup_empty. Qed.

End Results.

(** Symbolic execution through the read of the key [k] from the own
    properties [own]. *)
Ltac js_read own k :=
  js_run; rewrite ?js_lookup_filter_key, ?js_lookup_empty;
  unfold js_lookup, property_of, read_of, read_default_of;
  try destruct (own !! k); try destruct (inherited k); js_run.

(** * Properties *)

Section Properties.
Context {T : Type}.
Implicit Types (w : world T) (config : StorageConfig T) (v : T) (e : error).

(** ** Reading the store back *)

Lemma lookup_entry_union (k : string) (x : T) (m : gmap string T) :
  ({[k := x]} ∪ m) !! k = Some x.
Proof. apply lookup_union_Some_l, lookup_singleton_eq. Qed.

(** On a store that works, [get] resolves to what the store holds for the
    key, or else to what a plain object inherits under that name. *)
Lemma get_works config w :
  outcome (get config Works w) = read_of (key config) (items w !! key config).
Proof.
  destruct w as [its le ls ps n co un inv]. js_read its (key config); done.
Qed.

Lemma get_keeps_items config f w :
  items (after (get config f w)) = items w.
Proof.
  destruct w as [its le ls ps n co un inv], f; js_read its (key config); done.
Qed.

Lemma set_works config v w :
  outcome (set config v Works w) = Fulfilled None
  /\ items (after (set config v Works w)) = {[key config := v]} ∪ items w.
Proof. destruct w. split; js_run; done. Qed.

Lemma remove_works config w :
  outcome (remove config Works w) = Fulfilled None
  /\ items (after (remove config Works w)) = delete (key config) (items w).
Proof. destruct w. split; js_run; done. Qed.

(** Without a reported error the promise built by [set] is settled by
    exactly one call of a resolving function. *)
Lemma set_settles_once_unless_reported config v w :
  (promise_state (after (set config v Works w)) (S (nextId w)) = Fulfilled None
   /\ promise_settle_calls (after (set config v Works w)) (S (nextId w)) = 1)
  /\ forall e,
      promise_state (after (set config v (Throws e) w)) (S (nextId w)) = Rejected e
      /\ promise_settle_calls (after (set config v (Throws e) w)) (S (nextId w)) = 1.
Proof. destruct w. repeat split; js_run; done. Qed.

(** The same for [remove], and for [get] under every fault. *)
Lemma remove_settles_once_unless_reported config w :
  (promise_state (after (remove config Works w)) (S (nextId w)) = Fulfilled None
   /\ promise_settle_calls (after (remove config Works w)) (S (nextId w)) = 1)
  /\ forall e,
      promise_state (after (remove config (Throws e) w)) (S (nextId w)) = Rejected e
      /\ promise_settle_calls (after (remove config (Throws e) w)) (S (nextId w)) = 1.
Proof. destruct w. repeat split; js_run; done. Qed.

Lemma get_settles_once config f w :
  promise_state (after (get config f w)) (S (nextId w)) <> Pending
  /\ promise_settle_calls (after (get config f w)) (S (nextId w)) = 1.
Proof.
  destruct w as [its le ls ps n co un inv], f; split;
    js_read its (key config); done.
Qed.

(** C1: when the store reports an error through [lastError] for the write
    of [set(v)], the callback logs and raises inside the platform's call of
    it: the promise returned by [set] is left pending, it is not rejected;
    the error is uncaught and the store holds what it held. *)
Theorem set_reported_error_leaves_promise_pending config v e w :
  (set config v (Reports e) w).2 = Normal (nextId w)
  /\ promise_state (after (set config v (Reports e) w)) (nextId w) = Pending
  /\ (forall e', outcome (set config v (Reports e) w) <> Rejected e')
  /\ uncaught (after (set config v (Reports e) w)) = uncaught w ++ [e]
  /\ console (after (set config v (Reports e) w))
     = console w ++ [(("Storage set error for " ++ key config ++ ":")%string, e)]
  /\ items (after (set config v (Reports e) w)) = items w.
Proof. destruct w. repeat split; js_run; done. Qed.

(** C2: when the store call made by [get] raises, the promise of [get] is
    rejected with that error but nothing is written to the console: the
    handler of lines 19-22 is never entered.  An error reported through
    [lastError] is not logged either, and does not reject the promise. *)
Theorem get_store_error_is_not_logged config e w :
  outcome (get config (Throws e) w) = Rejected e
  /\ console (after (get config (Throws e) w)) = console w
  /\ (forall e', outcome (get config (Reports e) w) <> Rejected e')
  /\ console (after (get config (Reports e) w)) = console w.
Proof.
  destruct w as [its le ls ps n co un inv].
  repeat split; js_read its (key config); done.
Qed.

(** C3: with an error reported through [lastError], no resolving function
    of the promise built by [set] or by [remove] is ever called, and neither
    that promise nor the one returned to the caller settles. *)
Theorem reported_error_promise_never_settles config v e w :
  ((set config v (Reports e) w).2 = Normal (nextId w)
   /\ promise_state (after (set config v (Reports e) w)) (nextId w) = Pending
   /\ promise_state (after (set config v (Reports e) w)) (S (nextId w)) = Pending
   /\ promise_settle_calls (after (set config v (Reports e) w)) (S (nextId w)) = 0)
  /\ ((remove config (Reports e) w).2 = Normal (nextId w)
   /\ promise_state (after (remove config (Reports e) w)) (nextId w) = Pending
   /\ promise_state (after (remove config (Reports e) w)) (S (nextId w)) = Pending
   /\ promise_settle_calls (after (remove config (Reports e) w)) (S (nextId w)) = 0).
Proof. destruct w. repeat split; js_run; done. Qed.

(** C4: on a store that works, for every type [T] and every value [v],
    [set(v)] resolves and a [get()] made after it resolves to [v]. *)
Theorem get_after_set_roundtrip config v w :
  outcome (set config v Works w) = Fulfilled None
  /\ outcome (get config Works (after (set config v Works w))) = Fulfilled (Some v).
Proof.
  split; [apply set_works |].
  rewrite get_works.
  destruct (set_works config v w) as [_ ->]. by rewrite lookup_entry_union.
Qed.


(** C8: [reset()] behaves as [set(config.defaultValue)]: under every fault
    of the store its promise ends as the promise of [set] does and the
    store, the console and the uncaught errors end the same; on a store that
    works, a [get()] made after [reset()] resolves to [config.defaultValue]. *)
Theorem reset_is_set_defaultValue config f w :
  outcome (reset config f w) = outcome (set config (defaultValue config) f w)
  /\ items (after (reset config f w))
     = items (after (set config (defaultValue config) f w))
  /\ console (after (reset config f w))
     = console (after (set config (defaultValue config) f w))
  /\ uncaught (after (reset config f w))
     = uncaught (after (set config (defaultValue config) f w))
  /\ outcome (get config Works (after (reset config Works w)))
     = Fulfilled (Some (defaultValue config)).
Proof.
  repeat split; try (destruct w, f; js_run; done).
  rewrite get_works.
  replace (items (after (reset config Works w)))
    with ({[key config := defaultValue config]} ∪ items w)
    by (destruct w; js_run; done).
  by rewrite lookup_entry_union.
Qed.


(** ** Watching *)

Implicit Types (changes : gmap string (StorageChange T)) (lid cb : nat).

(** The listener calls the callback exactly when a call is owed. *)
Lemma owed_arg_listener (k : string) changes :
  owed_arg k changes
  = if js_in k changes then Some (newValue_of (js_lookup changes k)) else None.
Proof.
  unfold owed_arg, js_in, js_lookup, property_of.
  destruct (changes !! k); [done |]. by destruct (inherited k).
Qed.

Lemma listener_call_owed changes lid (k : string) cb :
  listener_call changes (lid, Listener k cb)
  = (fun v : option T => (lid, cb, v)) <$> owed_arg k changes.
Proof.
  unfold listener_call. simpl. rewrite owed_arg_listener.
  by destruct (js_in k changes).
Qed.

Lemma run_listener_trace changes (x : nat * listener) w :
  run_listener x.1 x.2 changes w
  = with_invocations
      (invocations w ++ omap (listener_call changes) [x]) w.
Proof.
  destruct w. unfold run_listener, listener_call. simpl.
  destruct (js_in (l_key x.2) changes); simpl; [done |].
  unfold with_invocations. simpl. by rewrite app_nil_r.
Qed.

Lemma run_listeners_trace changes (ls : list (nat * listener)) w :
  foldl (fun w1 x => run_listener x.1 x.2 changes w1) w ls
  = with_invocations (invocations w ++ omap (listener_call changes) ls) w.
Proof.
  revert w. induction ls as [|x ls IH]; intros w.
  - destruct w. unfold with_invocations. simpl. by rewrite app_nil_r.
  - cbn [foldl]. rewrite IH, run_listener_trace.
    destruct w as [its le ls0 ps n co un inv].
    unfold with_invocations. cbn [invocations items lastError listeners
      promises nextId console uncaught].
    rewrite <- app_assoc, <- omap_app. done.
Qed.

Lemma deliver_trace changes w :
  deliver changes w
  = with_invocations
      (invocations w ++ omap (listener_call changes) (listeners w)) w.
Proof. apply run_listeners_trace. Qed.

Lemma deliver_listeners changes w :
  listeners (deliver changes w) = listeners w.
Proof. by rewrite deliver_trace. Qed.


Lemma invocations_of_deliver lid changes w :
  invocations_of lid (deliver changes w)
  = invocations_of lid w
    ++ omap (through lid) (omap (listener_call changes) (listeners w)).
Proof.
  rewrite deliver_trace. unfold invocations_of. simpl. apply omap_app.
Qed.


(** A listener with another identity contributes no call through [lid]. *)
Lemma no_call_through lid changes (ls : list (nat * listener)) :
  Forall (fun x => x.1 ≠ lid) ls ->
  omap (through lid) (omap (listener_call changes) ls) = [].
Proof.
  induction 1 as [|x ls Hx _ IH]; [done |].
  cbn [omap list_omap]. unfold listener_call at 1.
  destruct (js_in (l_key x.2) changes); simpl; [| exact IH].
  unfold through at 1. simpl. rewrite decide_False by done. exact IH.
Qed.


(** The listener [lid] of a subscription to [k] makes the call that is owed
    to the event, if one is. *)
Lemma one_call_through_among lid (k : string) cb changes
    (ls ls' : list (nat * listener)) :
  Forall (fun x => x.1 ≠ lid) ls ->
  Forall (fun x => x.1 ≠ lid) ls' ->
  omap (through lid)
    (omap (listener_call changes) ((ls ++ [(lid, Listener k cb)]) ++ ls'))
  = owed_calls k cb [changes].
Proof.
  intros Hls Hls'.
  rewrite (omap_app _ (ls ++ _) ls'), (omap_app (through lid)).
  rewrite (omap_app _ ls), (omap_app (through lid)).
  rewrite (no_call_through lid changes ls), (no_call_through lid changes ls')
    by done.
  rewrite app_nil_r. simpl.
  rewrite listener_call_owed. unfold owed_calls, owed_args. simpl.
  destruct (owed_arg k changes); simpl; [| done].
  unfold through. simpl. by rewrite decide_True.
Qed.

Lemma one_call_through lid (k : string) cb changes (ls : list (nat * listener)) :
  Forall (fun x => x.1 ≠ lid) ls ->
  omap (through lid) (omap (listener_call changes) (ls ++ [(lid, Listener k cb)]))
  = owed_calls k cb [changes].
Proof.
  intros Hls. rewrite <- (app_nil_r (ls ++ _)).
  by apply one_call_through_among.
Qed.


Lemma owed_args_cons (k : string) changes
    (events : list (gmap string (StorageChange T))) :
  owed_args k (changes :: events) = owed_args k [changes] ++ owed_args k events.
Proof. unfold owed_args. simpl. by destruct (owed_arg k changes). Qed.

Lemma owed_calls_cons (k : string) cb changes
    (events : list (gmap string (StorageChange T))) :
  owed_calls k cb (changes :: events)
  = owed_calls k cb [changes] ++ owed_calls k cb events.
Proof. unfold owed_calls. by rewrite owed_args_cons, fmap_app. Qed.

Lemma deliver_all_subscribed_among lid (k : string) cb
    (ls ls' : list (nat * listener))
    (events : list (gmap string (StorageChange T))) w :
  listeners w = (ls ++ [(lid, Listener k cb)]) ++ ls' ->
  Forall (fun x => x.1 ≠ lid) ls ->
  Forall (fun x => x.1 ≠ lid) ls' ->
  invocations_of lid (deliver_all events w)
  = invocations_of lid w ++ owed_calls k cb events.
Proof.
  intros Hw Hls Hls'. revert w Hw.
  induction events as [|changes events IH]; intros w Hw.
  - unfold owed_calls. simpl. by rewrite app_nil_r.
  - unfold deliver_all. cbn [foldl].
    fold (deliver_all events (deliver changes w)).
    rewrite IH by (by rewrite deliver_listeners).
    rewrite invocations_of_deliver, Hw.
    rewrite one_call_through_among by done.
    rewrite (owed_calls_cons k cb changes events), app_assoc. done.
Qed.

Lemma deliver_all_subscribed lid (k : string) cb (ls : list (nat * listener))
    (events : list (gmap string (StorageChange T))) w :
  listeners w = ls ++ [(lid, Listener k cb)] ->
  Forall (fun x => x.1 ≠ lid) ls ->
  invocations_of lid (deliver_all events w)
  = invocations_of lid w ++ owed_calls k cb events.
Proof.
  intros Hw Hls.
  apply (deliver_all_subscribed_among lid k cb ls []); [| done | done].
  by rewrite app_nil_r.
Qed.



Lemma deliver_all_unsubscribed lid
    (events : list (gmap string (StorageChange T))) w :
  Forall (fun x => x.1 ≠ lid) (listeners w) ->
  invocations_of lid (deliver_all events w) = invocations_of lid w.
Proof.
  revert w. induction events as [|changes events IH]; intros w Hw; [done |].
  unfold deliver_all. cbn [foldl]. fold (deliver_all events (deliver changes w)).
  rewrite IH by (by rewrite deliver_listeners).
  rewrite invocations_of_deliver, no_call_through by done.
  by rewrite app_nil_r.
Qed.

(** What [watch] and the function it returns do. *)
Lemma watch_subscribes config cb w :
  watch config cb None w
  = (with_listeners (listeners w ++ [(nextId w, Listener (key config) cb)])
       (with_nextId (S (nextId w)) w),
     Normal (Unwatch (key config) (nextId w))).
Proof. by destruct w. Qed.

Lemma call_unregister_removes k lid w :
  call_unregister (Unwatch k lid) None w
  = (with_listeners (filter (fun x => x.1 ≠ lid) (listeners w)) w, Normal tt).
Proof. by destruct w. Qed.



Lemma filter_all {A : Type} (P : A -> Prop) `{!forall x, Decision (P x)}
    (l : list A) :
  Forall P l -> filter P l = l.
Proof.
  induction 1 as [|x l Hx _ IH]; [done |].
  rewrite filter_cons, decide_True by done. by rewrite IH.
Qed.



(** [listeners_known] holds at the start and is kept by every operation. *)
Lemma listeners_known_fresh : listeners_known (@fresh_world T).
Proof. constructor. Qed.

Lemma listeners_known_grows w w' :
  listeners_known w -> listeners w' = listeners w -> nextId w <= nextId w' ->
  listeners_known w'.
Proof.
  unfold listeners_known. intros Hw -> Hn.
  eapply Forall_impl; [exact Hw |]. intros x Hx. simpl in *. lia.
Qed.

Lemma listeners_known_watch config cb (f : option error) w :
  listeners_known w -> listeners_known (after (watch config cb f w)).
Proof.
  intros Hw. destruct f as [e|].
  - apply (listeners_known_grows w); [done | by destruct w | destruct w; simpl; lia].
  - rewrite watch_subscribes. unfold after, listeners_known. cbn [fst].
    destruct w as [its le ls ps n co un inv]. simpl in *.
    apply Forall_app. split.
    + eapply Forall_impl; [exact Hw |]. intros x Hx. simpl in *. lia.
    + repeat constructor.
Qed.

Lemma listeners_known_call_unregister (u : unregister) (f : option error) w :
  listeners_known w -> listeners_known (after (call_unregister u f w)).
Proof.
  intros Hw. destruct u as [k lid|], f as [e|];
    try (apply (listeners_known_grows w); [done | by destruct w | by destruct w]).
  rewrite call_unregister_removes. unfold after, listeners_known. cbn [fst].
  destruct w as [its le ls ps n co un inv]. simpl in *.
  apply Forall_forall. intros x Hx. apply list_elem_of_filter in Hx as [_ Hx].
  revert x Hx. by apply Forall_forall.
Qed.

Lemma listeners_known_deliver changes w :
  listeners_known w -> listeners_known (deliver changes w).
Proof.
  intros Hw. apply (listeners_known_grows w); [done | apply deliver_listeners |].
  rewrite deliver_trace. by destruct w.
Qed.

Lemma listeners_known_get config f w :
  listeners_known w -> listeners_known (after (get config f w)).
Proof.
  intros Hw. apply (listeners_known_grows w); [done | |];
    destruct w as [its le ls ps n co un inv], f;
    js_read its (key config); simpl; lia || done.
Qed.

Lemma listeners_known_set config v f w :
  listeners_known w -> listeners_known (after (set config v f w)).
Proof.
  intros Hw. apply (listeners_known_grows w); [done | |];
    destruct w, f; js_run; simpl; lia || done.
Qed.

Lemma listeners_known_remove config f w :
  listeners_known w -> listeners_known (after (remove config f w)).
Proof.
  intros Hw. apply (listeners_known_grows w); [done | |];
    destruct w, f; js_run; simpl; lia || done.
Qed.

Lemma listeners_known_others w :
  listeners_known w -> Forall (fun x => x.1 ≠ nextId w) (listeners w).
Proof.
  unfold listeners_known. intros Hw.
  eapply Forall_impl; [exact Hw |]. intros x Hx. simpl in *. lia.
Qed.

Lemma filter_drops_last (lid : nat) (l : listener) (ls : list (nat * listener)) :
  Forall (fun x => x.1 ≠ lid) ls ->
  filter (fun x : nat * listener => x.1 ≠ lid) (ls ++ [(lid, l)]) = ls.
Proof.
  intros Hls. rewrite filter_app, filter_all by done.
  rewrite filter_cons, decide_False by (simpl; intros H; by apply H).
  by rewrite filter_nil, app_nil_r.
Qed.







(** C10: when a change event has the configured key with no [newValue]
    (the key was removed), an active subscription made by [watch(cb)] still
    calls [cb], with [undefined]. *)
Theorem watch_passes_undefined_on_removal config cb changes
    (ch : StorageChange T) w :
  listeners_known w ->
  changes !! key config = Some ch ->
  newValue ch = None ->
  invocations_of (nextId w) (deliver changes (after (watch config cb None w)))
  = invocations_of (nextId w) w ++ [(cb, None)].
Proof.
  intros Hw Hch Hnew. rewrite watch_subscribes. unfold after. cbn [fst].
  rewrite invocations_of_deliver.
  replace (listeners (with_listeners _ _))
    with (listeners w ++ [(nextId w, Listener (key config) cb)])
    by (by destruct w).
  rewrite one_call_through by (by apply listeners_known_others).
  unfold owed_calls, owed_args. simpl. unfold owed_arg. rewrite Hch. simpl.
  rewrite Hnew. by destruct w.
Qed.

End Properties.

(** * The scenario of section 8, run *)

Example fresh_store_gives_default :
  outcome (getWithDefault theme_config Works fresh_world)
  = Fulfilled (Some "light").
Proof. vm_compute. reflexivity. Qed.

Example set_dark_then_get :
  outcome (get theme_config Works (after (set theme_config "dark" Works fresh_world)))
  = Fulfilled (Some "dark").
Proof. vm_compute. reflexivity. Qed.

Example change_event_fires_watcher :
  invocations_of 0 (deliver theme_changed watching) = [(7, Some "dark")].
Proof. vm_compute. reflexivity. Qed.

Example reset_then_get :
  outcome (get theme_config Works
             (after (reset theme_config Works
                       (after (set theme_config "dark" Works fresh_world)))))
  = Fulfilled (Some "light").
Proof. vm_compute. reflexivity. Qed.

(** A write that the store reports as failed: the promise of [set] stays
    pending, the error is uncaught, nothing is stored. *)
Example set_quota_exceeded :
  outcome (set theme_config "dark" (Reports quota_exceeded) fresh_world) = Pending
  /\ uncaught (after (set theme_config "dark" (Reports quota_exceeded) fresh_world))
     = [quota_exceeded]
  /\ items (after (set theme_config "dark" (Reports quota_exceeded) fresh_world))
     = ∅.
Proof. vm_compute. repeat split; reflexivity. Qed.






(** The removal of the theme reaches the callback as [undefined]. *)
Lemma watch_passes_undefined_on_removal_witness :
  listeners_known (@fresh_world string)
  /\ theme_removed !! "theme" = Some (Change None (Some "dark"))
  /\ invocations_of 0 (deliver theme_removed watching) = [(7, None)].
Proof.
  assert (Hk : listeners_known (@fresh_world string)) by constructor.
  assert (Hch : theme_removed !! key theme_config
                = Some (Change None (Some "dark"))) by reflexivity.
  split; [exact Hk |]. split; [exact Hch |].
  exact (watch_passes_undefined_on_removal theme_config 7 theme_removed
           (Change None (Some "dark")) fresh_world Hk Hch eq_refl).
Defined.


(** * Further properties of the accessor *)

Section Further.
Context {T : Type}.
Implicit Types (w : world T) (config reader : StorageConfig T) (v : T) (e : error)
  (o : @write_op T) (os : list (@write_op T * fault)).

(** ** Writes *)

(** What one write leaves in the store. *)
Lemma run_op_items config o f w :
  items (after (run_op config o f w))
  = match f with
    | Works =>
        match o with
        | OpSet value => {[key config := value]} ∪ items w
        | OpRemove => delete (key config) (items w)
        | OpReset => {[key config := defaultValue config]} ∪ items w
        end
    | _ => items w
    end.
Proof. unfold run_op. destruct w, o, f; js_run; done. Qed.

Lemma run_op_register config o f w :
  items (after (run_op config o f w)) !! key config
  = register_step (defaultValue config) (items w !! key config) (o, f).
Proof.
  rewrite run_op_items. unfold register_step. simpl.
  destruct f, o; try done; by rewrite ?lookup_entry_union, ?lookup_delete_eq.
Qed.

Lemma run_op_frame config o f w (k : string) :
  k ≠ key config ->
  items (after (run_op config o f w)) !! k = items w !! k.
Proof.
  intros Hk. rewrite run_op_items.
  destruct f, o; try done.
  - rewrite lookup_union_r; [done | by apply lookup_singleton_ne].
  - by apply lookup_delete_ne.
  - rewrite lookup_union_r; [done | by apply lookup_singleton_ne].
Qed.

Lemma run_ops_register config os w :
  items (run_ops config os w) !! key config
  = register_run (defaultValue config) os (items w !! key config).
Proof.
  revert w. induction os as [|[o f] os IH]; intros w; [done |].
  unfold run_ops, register_run. cbn [foldl fst snd].
  fold (run_ops config os (after (run_op config o f w))).
  fold (register_run (defaultValue config) os
          (register_step (defaultValue config) (items w !! key config) (o, f))).
  rewrite IH. by rewrite run_op_register.
Qed.

Lemma run_ops_frame config os w (k : string) :
  k ≠ key config -> items (run_ops config os w) !! k = items w !! k.
Proof.
  intros Hk. revert w. induction os as [|[o f] os IH]; intros w; [done |].
  unfold run_ops. cbn [foldl fst snd].
  fold (run_ops config os (after (run_op config o f w))).
  rewrite IH. by apply run_op_frame.
Qed.


Lemma getWithDefault_reads config w :
  outcome (getWithDefault config Works w)
  = read_default_of (key config) (defaultValue config) (items w !! key config).
Proof.
  destruct w as [its le ls ps n co un inv]. js_read its (key config); done.
Qed.

(** X4: on a store that works [getWithDefault()] resolves to the stored
    value whenever the key is stored, whatever the value is; when the key
    is not stored it resolves to [config.defaultValue], unless plain objects
    inherit a property named as the key: then it resolves to that member
    of [Object.prototype], not to the default. *)
Theorem getWithDefault_works config w :
  (forall v, items w !! key config = Some v ->
     outcome (getWithDefault config Works w) = Fulfilled (Some v))
  /\ (items w !! key config = None -> inherited (key config) = false ->
     outcome (getWithDefault config Works w)
     = Fulfilled (Some (defaultValue config)))
  /\ (items w !! key config = None -> inherited (key config) = true ->
     outcome (getWithDefault config Works w)
     = FulfilledInherited (key config)).
Proof.
  rewrite getWithDefault_reads. unfold read_default_of.
  split; [by intros v -> | split; by intros -> ->].
Qed.

Lemma getWithDefault_keeps_items config f w :
  items (after (getWithDefault config f w)) = items w.
Proof.
  destruct w as [its le ls ps n co un inv], f;
    js_read its (key config); done.
Qed.

(** X1: when the store call made by [set], [remove] or [reset] raises, the
    returned promise is rejected with that error, the store keeps what it
    held, and nothing is logged or left uncaught: the handlers of lines
    38-41 and 101-104 are not entered. *)
Theorem raising_write_rejects_unlogged config o e w :
  outcome (run_op config o (Throws e) w) = Rejected e
  /\ console (after (run_op config o (Throws e) w)) = console w
  /\ uncaught (after (run_op config o (Throws e) w)) = uncaught w
  /\ items (after (run_op config o (Throws e) w)) = items w.
Proof. unfold run_op. destruct w, o; repeat split; js_run; done. Qed.

(** X2: after any sequence of [set], [remove] and [reset] calls made
    through one accessor, failed or not, the store holds for the key the
    value of a single register on which only the writes that the store
    performed took effect, the last one winning; a [get()] through any
    accessor of the same key resolves to that value and [getWithDefault()]
    too; when the register is empty, they resolve to what [read_of] and
    [read_default_of] say of an empty store: [undefined] and the default of
    the accessor that reads, or the inherited member for a key that plain
    objects inherit. *)
Theorem writes_refine_register config (d' : T) os w :
  items (run_ops config os w) !! key config
  = register_run (defaultValue config) os (items w !! key config)
  /\ outcome (get (Config (key config) d') Works (run_ops config os w))
     = read_of (key config)
         (register_run (defaultValue config) os (items w !! key config))
  /\ outcome (getWithDefault (Config (key config) d') Works (run_ops config os w))
     = read_default_of (key config) d'
         (register_run (defaultValue config) os (items w !! key config)).
Proof.
  rewrite get_works, getWithDefault_reads. simpl.
  by rewrite run_ops_register.
Qed.

(** X3: writes through the accessor of one key, failed or not, leave every
    other key of the store as it was: an accessor of another key reads what
    it read before. *)
Theorem writes_leave_other_keys config reader os w :
  key reader ≠ key config ->
  outcome (get reader Works (run_ops config os w)) = outcome (get reader Works w)
  /\ outcome (getWithDefault reader Works (run_ops config os w))
     = outcome (getWithDefault reader Works w)
  /\ forall k : string, k ≠ key config ->
       items (run_ops config os w) !! k = items w !! k.
Proof.
  intros Hk.
  rewrite !get_works, !getWithDefault_reads, !run_ops_frame by done.
  repeat split. intros k Hk'. by apply run_ops_frame.
Qed.

(** X5: [get] and [getWithDefault] never change the store, whatever the
    store call does; in particular [getWithDefault] does not store the
    default it falls back to, and a [get()] made after it resolves to what
    a [get()] made instead of it resolves to. *)
Theorem reads_never_write config f w :
  items (after (get config f w)) = items w
  /\ items (after (getWithDefault config f w)) = items w
  /\ outcome (get config Works (after (getWithDefault config f w)))
     = outcome (get config Works w).
Proof.
  split; [apply get_keeps_items |]. split; [apply getWithDefault_keeps_items |].
  by rewrite !get_works, getWithDefault_keeps_items.
Qed.

(** X6: when the store call of the inner [get] raises, [getWithDefault]
    writes exactly one line to the console, its own, with the key and the
    error, and leaves no uncaught error. *)
Theorem getWithDefault_logs_rejected_get config e w :
  console (after (getWithDefault config (Throws e) w))
  = console w
    ++ [(("Storage getWithDefault error for " ++ key config ++ ":")%string, e)]
  /\ uncaught (after (getWithDefault config (Throws e) w)) = uncaught w.
Proof. destruct w. split; js_run; done. Qed.

(** X7: [remove()] of a key that the store does not hold resolves all the
    same and leaves the whole store as it was. *)
Theorem remove_missing_key config w :
  items w !! key config = None ->
  outcome (remove config Works w) = Fulfilled None
  /\ items (after (remove config Works w)) = items w.
Proof.
  intros Hk. destruct (remove_works config w) as [-> ->].
  split; [done |]. by apply delete_id.
Qed.

(** X10: on a store that works no operation writes to the console or
    leaves an uncaught error, and every write resolves, whatever the store
    held before. *)
Theorem quiet_on_success config o w :
  (console (after (get config Works w)) = console w
   /\ uncaught (after (get config Works w)) = uncaught w)
  /\ (console (after (getWithDefault config Works w)) = console w
   /\ uncaught (after (getWithDefault config Works w)) = uncaught w)
  /\ (outcome (run_op config o Works w) = Fulfilled None
   /\ console (after (run_op config o Works w)) = console w
   /\ uncaught (after (run_op config o Works w)) = uncaught w).
Proof.
  unfold run_op. destruct w as [its le ls ps n co un inv].
  repeat split; try (destruct o; js_run; done);
    js_read its (key config); done.
Qed.


(** ** Subscriptions *)

(** X8: subscribing and then unsubscribing gives back the world as it
    was, the listener list included, but for the identity taken by the
    closure: [watch] makes no call of the callback by itself and changes
    neither the store nor the console. *)
Theorem watch_then_unregister_restores config (cb : nat) w :
  listeners_known w ->
  after (call_unregister (Unwatch (key config) (nextId w)) None
           (after (watch config cb None w)))
  = with_nextId (S (nextId w)) w.
Proof.
  intros Hw. apply listeners_known_others in Hw.
  rewrite watch_subscribes, call_unregister_removes. unfold after. cbn [fst].
  destruct w as [its le ls ps n co un inv]. unfold with_listeners, with_nextId.
  simpl in *. by rewrite filter_drops_last.
Qed.

(** X9: two subscriptions made one after the other, on the same key or
    not, with the same callback or not, each receive their own calls, those
    that [owed_calls] gives for their key: one for each event that has the
    key, and for a key that plain objects inherit one with [undefined] for
    each other event; unsubscribing the first stops its calls and leaves
    the second receiving all of its own. *)
Theorem subscriptions_are_independent config1 config2 (cb1 cb2 : nat)
    (events : list (gmap string (StorageChange T))) w :
  listeners_known w ->
  let lid1 := nextId w in
  let lid2 := S (nextId w) in
  let w2 := after (watch config2 cb2 None (after (watch config1 cb1 None w))) in
  let w3 := after (call_unregister (Unwatch (key config1) lid1) None w2) in
  (invocations_of lid1 (deliver_all events w2)
   = invocations_of lid1 w ++ owed_calls (key config1) cb1 events
   /\ invocations_of lid2 (deliver_all events w2)
     = invocations_of lid2 w ++ owed_calls (key config2) cb2 events)
  /\ (invocations_of lid1 (deliver_all events w3) = invocations_of lid1 w
   /\ invocations_of lid2 (deliver_all events w3)
     = invocations_of lid2 w ++ owed_calls (key config2) cb2 events).
Proof.
  intros Hw lid1 lid2 w2 w3.
  assert (H1 : Forall (fun x : nat * listener => x.1 ≠ lid1) (listeners w))
    by (by apply listeners_known_others).
  assert (H2 : Forall (fun x : nat * listener => x.1 ≠ lid2) (listeners w)).
  { eapply Forall_impl; [exact Hw |]. intros x Hx. subst lid2. simpl in *. lia. }
  set (l1 := Listener (key config1) cb1). set (l2 := Listener (key config2) cb2).
  assert (Hw2 : listeners w2 = (listeners w ++ [(lid1, l1)]) ++ [(lid2, l2)]).
  { subst w2. rewrite !watch_subscribes. by destruct w. }
  assert (Hi2 : invocations w2 = invocations w).
  { subst w2. rewrite !watch_subscribes. by destruct w. }
  assert (Hw3 : listeners w3 = listeners w ++ [(lid2, l2)]).
  { subst w3. rewrite call_unregister_removes. unfold after. cbn [fst].
    replace (listeners (with_listeners _ w2))
      with (filter (fun x : nat * listener => x.1 ≠ lid1) (listeners w2))
      by (by destruct w2).
    rewrite Hw2, filter_app, filter_drops_last by done.
    rewrite filter_cons, decide_True by (subst lid1 lid2; simpl; lia).
    by rewrite filter_nil. }
  assert (Hi3 : invocations w3 = invocations w).
  { subst w3. rewrite call_unregister_removes. rewrite <- Hi2. by destruct w2. }
  assert (Hof : forall lid w', invocations w' = invocations w ->
            invocations_of lid w' = invocations_of lid w)
    by (intros lid w' Hi; unfold invocations_of; by rewrite Hi).
  repeat split.
  - rewrite <- (Hof lid1 w2 Hi2).
    apply (deliver_all_subscribed_among lid1 (key config1) cb1 (listeners w)
             [(lid2, l2)]); [exact Hw2 | done |].
    repeat constructor. subst lid1 lid2. simpl. lia.
  - rewrite <- (Hof lid2 w2 Hi2).
    apply (deliver_all_subscribed_among lid2 (key config2) cb2
             (listeners w ++ [(lid1, l1)]) []);
      [by rewrite Hw2, app_nil_r | | done].
    apply Forall_app. split; [done |]. repeat constructor.
    subst lid1 lid2. simpl. lia.
  - rewrite <- (Hof lid1 w3 Hi3). apply deliver_all_unsubscribed.
    rewrite Hw3. apply Forall_app. split; [done |]. repeat constructor.
    subst lid1 lid2. simpl. lia.
  - rewrite <- (Hof lid2 w3 Hi3).
    by apply (deliver_all_subscribed lid2 (key config2) cb2 (listeners w)).
Qed.

End Further.

(** * The further properties on the scenario *)

(** The five writes of [theme_writes]: the failed ones are skipped, the
    last performed one is read back. *)
Example theme_writes_read_back :
  outcome (get theme_config Works (run_ops theme_config theme_writes fresh_world))
  = Fulfilled (Some "sepia").
Proof. vm_compute. reflexivity. Qed.

Lemma writes_leave_other_keys_witness :
  key locale_config ≠ key theme_config
  /\ outcome (get locale_config Works
                (run_ops theme_config theme_writes dark_store))
     = outcome (get locale_config Works dark_store).
Proof.
  assert (Hk : key locale_config ≠ key theme_config) by (simpl; discriminate).
  split; [exact Hk |].
  exact (proj1 (writes_leave_other_keys theme_config locale_config
                  theme_writes dark_store Hk)).
Defined.

(** The stored theme is returned as it is; the default only on the fresh
    store. *)
Lemma getWithDefault_works_witness :
  items dark_store !! key theme_config = Some "dark"
  /\ outcome (getWithDefault theme_config Works dark_store)
     = Fulfilled (Some "dark").
Proof.
  assert (Hk : items dark_store !! key theme_config = Some "dark")
    by (vm_compute; reflexivity).
  split; [exact Hk |].
  exact (proj1 (getWithDefault_works theme_config dark_store) "dark" Hk).
Defined.

Lemma remove_missing_key_witness :
  items (@fresh_world string) !! key theme_config = None
  /\ outcome (remove theme_config Works fresh_world) = Fulfilled None
  /\ items (after (remove theme_config Works fresh_world)) = ∅.
Proof.
  assert (Hk : items (@fresh_world string) !! key theme_config = None)
    by reflexivity.
  split; [exact Hk |].
  exact (remove_missing_key theme_config fresh_world Hk).
Defined.

Lemma watch_then_unregister_restores_witness :
  listeners_known (@fresh_world string)
  /\ listeners (after (call_unregister (Unwatch "theme" 0) None watching)) = [].
Proof.
  assert (Hk : listeners_known (@fresh_world string)) by constructor.
  split; [exact Hk |].
  exact (f_equal listeners
           (watch_then_unregister_restores theme_config 7 fresh_world Hk)).
Defined.

(** The theme is watched by callback 7, then the locale by callback 8; of
    three events the first and the third are for the theme, the second for
    the locale. *)
Lemma subscriptions_are_independent_witness :
  listeners_known (@fresh_world string)
  /\ invocations_of 0
       (deliver_all [theme_changed; locale_changed; theme_removed]
          (after (call_unregister (Unwatch "theme" 0) None
                    (after (watch locale_config 8 None watching)))))
     = []
  /\ invocations_of 1
       (deliver_all [theme_changed; locale_changed; theme_removed]
          (after (call_unregister (Unwatch "theme" 0) None
                    (after (watch locale_config 8 None watching)))))
     = [(8, Some "fr")].
Proof.
  assert (Hk : listeners_known (@fresh_world string)) by constructor.
  split; [exact Hk |].
  exact (proj2 (subscriptions_are_independent theme_config locale_config 7 8
                  [theme_changed; locale_changed; theme_removed]
                  fresh_world Hk)).
Defined.
